(** * libsno: the Kalman filter of sno/kalman_filter.h

    A shallow embedding of [so::Kalman_filter<N, M>] and of the properties
    its design document states about it.

    The class is a template over the state dimension [N] and the control
    dimension [M]; its members are fixed-size Eigen matrices of [double].
    Two embeddings are given.

    - [Exact]: the template as written, for every [N], [M] and per-call
      observation dimension [U], with the scalars taken in an arbitrary
      field [F] (exact arithmetic) and Eigen's matrices as MathComp's
      ['M[F]_(m, n)].  Eigen documents [inverse()] as undefined on a
      singular matrix, so the embedding takes the inverse as a parameter
      that is only known to be the inverse on invertible matrices.
    - [Double1]: the instance [Kalman_filter<1>] with every observation of
      dimension one, on IEEE 754 binary64 numbers (Rocq's primitive floats),
      where every matrix has one coefficient and [inverse()] is [1 / s]. *)

From HB Require Import structures.
From mathcomp Require Import boot order algebra.
From Stdlib Require Import PrimFloat SpecFloat FloatOps FloatAxioms.
From Stdlib Require Ascii String NArith ZArith QArith.
From Stdlib Require Import Lia.

Set Implicit Arguments.
Unset Strict Implicit.
Unset Printing Implicit Defensive.
#[local] Set Warnings "-rewrite-rw,-inexact-float".

Import Order.Theory GRing.Theory Num.Theory.

(** ** Exceptions (sno/so_exception.h) and the outcome of a call *)

(** The exception classes the library declares. *)
Inductive so_exception : Type :=
| runtime_error
| logic_error
| Invalid_argument
| Read_error
| Write_error.

(** What a call of a [void] member does: it returns, leaving the object in a
    new state, or it leaves through an exception. *)
Inductive outcome (T : Type) : Type :=
| Returns (s : T)
| Throws (e : so_exception).

Arguments Returns {T} s.
Arguments Throws {T} e.

(** ** The template in exact arithmetic *)

Module Exact.

Local Open Scope ring_scope.

Section Filter.

Variable F : fieldType.
Variables N M : nat.

(** Typedefs of the class. *)
Definition MatrixNN := 'M[F]_N.
Definition Matrix1N := 'rV[F]_N.
Definition MatrixN1 := 'cV[F]_N.
Definition MatrixNM := 'M[F]_(N, M).
Definition MatrixM1 := 'cV[F]_M.

(** Private members. *)
Record Kalman_filter : Type := Build_Kalman_filter {
  m_A : F -> MatrixNN;
  m_B : F -> MatrixNM;
  m_Q : MatrixNN;
  m_x : MatrixN1;
  m_P : MatrixNN;
  m_last_timestamp : F
}.

(** The constructor wraps the constant matrices into constant functions of
    the elapsed time. *)
Definition new (A : MatrixNN) (B : MatrixNM) (Q : MatrixNN)
    (x0 : MatrixN1) (P0 : MatrixNN) (t0 : F) : Kalman_filter :=
  {| m_A := fun _ => A;
     m_B := fun _ => B;
     m_Q := Q;
     m_x := x0;
     m_P := P0;
     m_last_timestamp := t0 |}.

(** [Predict(u, t)]. *)
Definition Predict (u : MatrixM1) (t : F) (kf : Kalman_filter) : Kalman_filter :=
  let dt := t - m_last_timestamp kf in
  let A := m_A kf dt in
  let B := m_B kf dt in
  {| m_A := m_A kf;
     m_B := m_B kf;
     m_Q := m_Q kf;
     m_x := A *m m_x kf + B *m u;
     m_P := A *m m_P kf *m A^T + m_Q kf;
     m_last_timestamp := t |}.

(** [Predict(t)]: zero control input. *)
Definition Predict_t (t : F) (kf : Kalman_filter) : Kalman_filter :=
  Predict 0 t kf.

(** Neither overload has a [throw] or calls anything that has one. *)
Definition Predict_call (u : MatrixM1) (t : F) (kf : Kalman_filter) :
    outcome Kalman_filter :=
  Returns (Predict u t kf).

(** Eigen's [inverse()], unchecked: a total function on square matrices. *)
Variable inverse : forall U : nat, 'M[F]_U -> 'M[F]_U.

(** The locals of [Update]. *)
Definition innovation (U : nat) (z : 'cV[F]_U) (H : 'M[F]_(U, N))
    (kf : Kalman_filter) : 'cV[F]_U :=
  z - H *m m_x kf.

Definition innovation_covariance (U : nat) (H : 'M[F]_(U, N)) (R : 'M[F]_U)
    (kf : Kalman_filter) : 'M[F]_U :=
  H *m m_P kf *m H^T + R.

Definition kalman_gain (U : nat) (H : 'M[F]_(U, N)) (R : 'M[F]_U)
    (kf : Kalman_filter) : 'M[F]_(N, U) :=
  m_P kf *m H^T *m inverse (innovation_covariance H R kf).

(** The generic [Update<U>(z, H, R)]. *)
Definition Update (U : nat) (z : 'cV[F]_U) (H : 'M[F]_(U, N)) (R : 'M[F]_U)
    (kf : Kalman_filter) : Kalman_filter :=
  let y := innovation z H kf in
  let K := kalman_gain H R kf in
  {| m_A := m_A kf;
     m_B := m_B kf;
     m_Q := m_Q kf;
     m_x := m_x kf + K *m y;
     m_P := (1%:M - K *m H) *m m_P kf;
     m_last_timestamp := m_last_timestamp kf |}.

(** [Update(z, H, R)] on scalars: [Eigen::Matrix<double, 1, 1>(z)] is the
    1x1 matrix whose coefficient is [z]. *)
Definition Matrix11 (a : F) : 'M[F]_1 := \matrix_(i, j) a.

Definition Update_scalar (z : F) (H : Matrix1N) (R : F)
    (kf : Kalman_filter) : Kalman_filter :=
  Update (Matrix11 z) H (Matrix11 R) kf.

(** [Update] has no [throw] either, and [inverse()] is not checked. *)
Definition Update_call (U : nat) (z : 'cV[F]_U) (H : 'M[F]_(U, N))
    (R : 'M[F]_U) (kf : Kalman_filter) : outcome Kalman_filter :=
  Returns (Update z H R kf).

(** Accessors. *)
Definition Get_state_estimate (kf : Kalman_filter) : MatrixN1 := m_x kf.

Definition Get_error_covariance (kf : Kalman_filter) : MatrixNN := m_P kf.

(** Eigen accepts an assignment between fixed-size matrices when both are
    empty or when their shapes agree.  For an NxN source and an Nx1
    destination that is [N = 0] or [N = 1]; for any other [N] the
    assignment is rejected when the member is instantiated, which is
    [None]. *)
Definition assign_NN_to_N1 (x : MatrixNN) : option MatrixN1 :=
  if N =P 1%N is ReflectT e then Some (castmx (erefl N, e) x)
  else if N == 0%N then Some 0
  else None.

(** [Set_state_estimate(const MatrixNN& x)] is [m_x = x]. *)
Definition Set_state_estimate (x : MatrixNN) (kf : Kalman_filter) :
    option Kalman_filter :=
  if assign_NN_to_N1 x is Some x' then
    Some {| m_A := m_A kf;
            m_B := m_B kf;
            m_Q := m_Q kf;
            m_x := x';
            m_P := m_P kf;
            m_last_timestamp := m_last_timestamp kf |}
  else None.

Definition Set_error_covariance (p : MatrixNN) (kf : Kalman_filter) :
    Kalman_filter :=
  {| m_A := m_A kf;
     m_B := m_B kf;
     m_Q := m_Q kf;
     m_x := m_x kf;
     m_P := p;
     m_last_timestamp := m_last_timestamp kf |}.

(** A call made by the owner of the filter, with its arguments; the
    observation dimension [U] is chosen per call. *)
Inductive operation : Type :=
| Call_Predict (u : MatrixM1) (t : F)
| Call_Update (U : nat) (z : 'cV[F]_U) (H : 'M[F]_(U, N)) (R : 'M[F]_U).

Definition perform (kf : Kalman_filter) (op : operation) : Kalman_filter :=
  match op with
  | Call_Predict u t => Predict u t kf
  | Call_Update U z H R => Update z H R kf
  end.

(** A finite sequence of calls, in order. *)
Definition run (ops : seq operation) (kf : Kalman_filter) : Kalman_filter :=
  foldl perform kf ops.

End Filter.

Arguments Call_Predict {F N M} u t.
Arguments Call_Update {F N M U} z H R.

Section Runs.

Variable F : fieldType.
Variables N M : nat.

(** The same call with its data erased: a zero control input, a zero
    observation. *)
Definition forget_data (op : operation F N M) : operation F N M :=
  match op with
  | Call_Predict _ t => Call_Predict 0 t
  | Call_Update U _ H R => Call_Update 0 H R
  end.

(** Two filters that differ in the state estimate at most. *)
Definition same_but_x (kf kf' : Kalman_filter F N M) : Prop :=
  [/\ m_A kf = m_A kf', m_B kf = m_B kf', m_Q kf = m_Q kf',
      m_P kf = m_P kf' & m_last_timestamp kf = m_last_timestamp kf'].

(** The timestamp a call hands to [Predict], if it is one. *)
Definition Predict_time (op : operation F N M) : option F :=
  match op with
  | Call_Predict _ t => Some t
  | Call_Update _ _ _ _ => None
  end.




End Runs.

(** The scalar scenario of the design document: [N = 1], [A = 1], [B = 0],
    [Q = 0.01], [x0 = 0], [P0 = 1], [t0 = 0]. *)
Definition scenario (F : fieldType) : Kalman_filter F 1 1 :=
  new 1%:M 0 (100^-1)%:M 0 1%:M 0.

(** The calls of the scenario: [Predict(t = 1)], that is
    [Predict(u = 0, t = 1)], then [Update(z = 1, H = 1, R = 1)]. *)
Definition scenario_calls (F : fieldType) : seq (operation F 1 1) :=
  [:: Call_Predict 0 1; Call_Update (Matrix11 1) 1%:M (Matrix11 1)].

(** The inverse of exact arithmetic, MathComp's [invmx]; it is the identity
    on singular matrices. *)
Definition exact_inverse (F : fieldType) (U : nat) (S : 'M[F]_U) : 'M[F]_U :=
  invmx S.

(** Properties of covariance matrices. *)
Section Covariance.

Variable F : realFieldType.
Variable n : nat.

Definition symmetric (A : 'M[F]_n) : Prop := A^T = A.

Definition quadratic_form (A : 'M[F]_n) (v : 'cV[F]_n) : F :=
  (v^T *m A *m v) 0 0.

Definition positive_semidefinite (A : 'M[F]_n) : Prop :=
  forall v : 'cV[F]_n, 0 <= quadratic_form A v.

Definition covariance (A : 'M[F]_n) : Prop :=
  symmetric A /\ positive_semidefinite A.

End Covariance.

(** Well-conditioned sequences of calls: every observation comes with a
    covariance [R] and meets an invertible innovation covariance in the
    state it is applied to. *)
Section WellConditioned.

Variable F : realFieldType.
Variables N M : nat.
Variable inverse : forall U : nat, 'M[F]_U -> 'M[F]_U.

Definition well_conditioned (kf : Kalman_filter F N M)
    (op : operation F N M) : Prop :=
  match op with
  | Call_Predict _ _ => True
  | Call_Update U z H R =>
      covariance R /\ innovation_covariance H R kf \in unitmx
  end.

Fixpoint well_conditioned_run (ops : seq (operation F N M))
    (kf : Kalman_filter F N M) : Prop :=
  match ops with
  | [::] => True
  | op :: ops' =>
      well_conditioned kf op /\
      well_conditioned_run ops' (perform inverse kf op)
  end.

End WellConditioned.

End Exact.

(** ** The instance [Kalman_filter<1>] on binary64 numbers *)

Module Double1.

Local Open Scope float_scope.

(** With [N = M = 1] every member matrix is a single [double]. *)
Record Kalman_filter : Type := Build_Kalman_filter {
  m_A : float -> float;
  m_B : float -> float;
  m_Q : float;
  m_x : float;
  m_P : float;
  m_last_timestamp : float
}.

Definition new (A B Q x0 P0 t0 : float) : Kalman_filter :=
  {| m_A := fun _ => A;
     m_B := fun _ => B;
     m_Q := Q;
     m_x := x0;
     m_P := P0;
     m_last_timestamp := t0 |}.

(** [Predict(u, t)]; the transpose of a 1x1 matrix is the matrix. *)
Definition Predict (u t : float) (kf : Kalman_filter) : Kalman_filter :=
  let dt := t - m_last_timestamp kf in
  let A := m_A kf dt in
  let B := m_B kf dt in
  {| m_A := m_A kf;
     m_B := m_B kf;
     m_Q := m_Q kf;
     m_x := A * m_x kf + B * u;
     m_P := A * m_P kf * A + m_Q kf;
     m_last_timestamp := t |}.

Definition Predict_t (t : float) (kf : Kalman_filter) : Kalman_filter :=
  Predict 0 t kf.

(** Eigen's [inverse()] of a fixed-size 1x1 matrix is [1 / s]. *)
Definition inverse (s : float) : float := 1 / s.

Definition innovation (z H : float) (kf : Kalman_filter) : float :=
  z - H * m_x kf.

Definition innovation_covariance (H R : float) (kf : Kalman_filter) : float :=
  H * m_P kf * H + R.

Definition kalman_gain (H R : float) (kf : Kalman_filter) : float :=
  m_P kf * H * inverse (innovation_covariance H R kf).

(** [Update<1>(z, H, R)], which the scalar overload calls with its
    arguments unchanged. *)
Definition Update (z H R : float) (kf : Kalman_filter) : Kalman_filter :=
  let y := innovation z H kf in
  let K := kalman_gain H R kf in
  {| m_A := m_A kf;
     m_B := m_B kf;
     m_Q := m_Q kf;
     m_x := m_x kf + K * y;
     m_P := (1 - K * H) * m_P kf;
     m_last_timestamp := m_last_timestamp kf |}.

Definition Update_call (z H R : float) (kf : Kalman_filter) :
    outcome Kalman_filter :=
  Returns (Update z H R kf).

Definition Get_state_estimate (kf : Kalman_filter) : float := m_x kf.

Definition Get_error_covariance (kf : Kalman_filter) : float := m_P kf.

(** The scalar scenario of the design document. *)
Definition scenario : Kalman_filter := new 1 0 0.01 0 1 0.

(** Classes of binary64 numbers: the two zeros; the infinities and NaN. *)
Definition is_zero (a : float) : bool :=
  match Prim2SF a with
  | S754_zero _ => true
  | _ => false
  end.

Definition not_finite (a : float) : bool :=
  match Prim2SF a with
  | S754_infinity _ | S754_nan => true
  | _ => false
  end.

(** Calls made by the owner of the filter, and sequences of them. *)
Inductive operation : Type :=
| Call_Predict (u t : float)
| Call_Update (z H R : float).

Definition perform (kf : Kalman_filter) (op : operation) : Kalman_filter :=
  match op with
  | Call_Predict u t => Predict u t kf
  | Call_Update z H R => Update z H R kf
  end.

Definition run (ops : seq operation) (kf : Kalman_filter) : Kalman_filter :=
  foldl perform kf ops.

Definition is_Update (op : operation) : bool :=
  match op with
  | Call_Update _ _ _ => true
  | Call_Predict _ _ => false
  end.

(** Distance at most [eps], as a test on binary64 numbers. *)
Definition within (eps a b : float) : bool := abs (a - b) <=? eps.

End Double1.


(** ** The error log of include/errlog.h

    [Err_log<char>], one thread at a time: the mutex and the scoped lock
    are left out.  A [std::string] is a list of characters and [size_t] is
    a 64-bit unsigned integer.  The streams are not modelled by their
    contents: what is recorded is each insertion made, and into which
    stream. *)

Module Errlog.

Import Ascii.AsciiSyntax String.StringSyntax NArith ZArith.

Delimit Scope char_scope with char.

Local Open Scope N_scope.

HB.instance Definition _ := hasDecEq.Build Ascii.ascii Ascii.eqb_spec.

Definition std_string : Type := seq Ascii.ascii.

(** A string literal of the source. *)
Definition text (s : String.string) : std_string :=
  String.list_ascii_of_string s.

Arguments text s%_string_scope.

(** [std::string::npos], and addition on [size_t]. *)
Definition npos : N := 2 ^ 64 - 1.

Definition size_t_add (a b : N) : N := (a + b) mod 2 ^ 64.

(** The size of a string is below [npos]. *)
Definition fits_size_t (s : std_string) : bool := N.of_nat (size s) <? npos.

(** [s.find_last_of(c)]: the position of the last [c] in [s], [npos] when
    there is none. *)
Definition find_last_of (s : std_string) (c : Ascii.ascii) : N :=
  if c \in s then N.of_nat (size s - (index c (rev s)).+1) else npos.

(** [s.substr(pos, n)]: [std::out_of_range], which is [None], when
    [pos > s.size()]; otherwise the [min(n, size - pos)] characters from
    [pos] on. *)
Definition substr (s : std_string) (pos n : N) : option std_string :=
  if N.of_nat (size s) <? pos then None
  else Some (take (N.to_nat (N.min n (N.of_nat (size s) - pos)))
               (drop (N.to_nat pos) s)).

(** The magnitudes, with their values. *)
Inductive EMag : Type :=
| EMAG_Unknown
| EMAG_Debug
| EMAG_Info
| EMAG_Warning
| EMAG_Severe
| EMAG_Fatal.

Definition EMag_value (mag : EMag) : Z :=
  match mag with
  | EMAG_Unknown => -1
  | EMAG_Debug => 10
  | EMAG_Info => 20
  | EMAG_Warning => 30
  | EMAG_Severe => 40
  | EMAG_Fatal => 50
  end.

(** The [switch] of [get_msg_prefix]. *)
Definition level_prefix (mag : EMag) : std_string :=
  match mag with
  | EMAG_Debug => text "DEBUG--"
  | EMAG_Info => text "INFO--"
  | EMAG_Warning => text "WARNING--"
  | EMAG_Severe => text "SEVERE--"
  | EMAG_Fatal => text "FATAL--"
  | EMAG_Unknown => text " --"
  end.

(** [get_msg_prefix(curr_func)], of a message of magnitude [m_curr_mag]. *)
Definition get_msg_prefix (m_curr_mag : EMag) (curr_func : std_string) :
    option std_string :=
  let err_prefix := level_prefix m_curr_mag in
  let args_start := find_last_of curr_func "("%char in
  if substr curr_func 0 args_start is Some func_no_args then
    let scope_start := size_t_add (find_last_of func_no_args " "%char) 1 in
    if substr func_no_args scope_start npos is Some func then
      Some (err_prefix ++ text "[" ++ func ++ text "] ")
    else None
  else None.

(** The streams a message can reach, and the static members of the class. *)
Inductive stream : Type :=
| Default_stream
| File_stream (filename : std_string).

Record statics : Type := Build_statics {
  m_mag : EMag;
  m_out_stream : option stream
}.

(** The static members as they are initialised. *)
Definition initial_statics : statics :=
  {| m_mag := EMAG_Debug; m_out_stream := Some Default_stream |}.

Definition Set_logging_level (mag : EMag) (st : statics) : statics :=
  {| m_mag := mag; m_out_stream := m_out_stream st |}.

Definition Set_log_file (filename : std_string) (st : statics) : statics :=
  {| m_mag := m_mag st; m_out_stream := Some (File_stream filename) |}.

(** The members of a message. *)
Record Err_log : Type := Build_Err_log {
  m_alt_stream : option stream;
  m_curr_mag : EMag
}.

Section Insertions.

(** What is inserted: an object of any type [R], or a stream function. *)
Variables R StrFunc : Type.

Inductive insertion : Type :=
| Object (obj : R)
| Function (func : StrFunc).

(** What reaches a stream. *)
Inductive event : Type :=
| Write_prefix (to : stream) (prefix : std_string)
| Write (to : stream) (x : insertion).

Definition event_stream (e : event) : stream :=
  match e with
  | Write_prefix to _ => to
  | Write to _ => to
  end.

(** [Err_log(scope, mag)].  The prefix goes to [*m_out_stream], which is
    dereferenced unchecked: a null pointer is [None]. *)
Definition Err_log_new (scope : std_string) (mag : EMag) (st : statics) :
    option (Err_log * seq event) :=
  if get_msg_prefix mag scope is Some prefix then
    if m_out_stream st is Some out then
      Some ({| m_alt_stream := None; m_curr_mag := mag |},
            [:: Write_prefix out prefix])
    else None
  else None.

(** [Err_log(scope, mag, file)]. *)
Definition Err_log_new_file (scope : std_string) (mag : EMag)
    (file : std_string) (st : statics) : option (Err_log * seq event) :=
  if get_msg_prefix mag scope is Some prefix then
    Some ({| m_alt_stream := Some (File_stream file); m_curr_mag := mag |},
          [:: Write_prefix (File_stream file) prefix])
  else None.

(** The two [operator<<]. *)
Definition insert (x : insertion) (msg : Err_log) (st : statics) : seq event :=
  if (EMag_value (m_mag st) <=? EMag_value (m_curr_mag msg))%Z then
    if m_alt_stream msg is Some alt then [:: Write alt x]
    else if m_out_stream st is Some out then [:: Write out x]
    else [::]
  else [::].

(** A statement [Err_log(scope, mag) << x1 << ... << xn;], and the same
    with a file. *)
Definition insert_all (xs : seq insertion) (msg : Err_log) (st : statics) :
    seq event :=
  flatten [seq insert x msg st | x <- xs].

Definition log (scope : std_string) (mag : EMag) (xs : seq insertion)
    (st : statics) : option (seq event) :=
  if Err_log_new scope mag st is Some (msg, prefix) then
    Some (prefix ++ insert_all xs msg st)
  else None.

Definition log_file (scope : std_string) (mag : EMag) (file : std_string)
    (xs : seq insertion) (st : statics) : option (seq event) :=
  if Err_log_new_file scope mag file st is Some (msg, prefix) then
    Some (prefix ++ insert_all xs msg st)
  else None.

End Insertions.

End Errlog.

(** ** The clock of src/time_utils.cpp

    In exact arithmetic: the quotient by [1.0e6] is a rational number. *)

Module Time_utils.

Import ZArith QArith.

Local Open Scope Z_scope.

(** The values of a 64-bit signed integer. *)
Definition int64_range (a : Z) : bool := (- 2 ^ 63 <=? a) && (a <? 2 ^ 63).

(** [Unix_time()], [now] being what [std::time(nullptr)] returns.  The
    conversion of the seconds to microseconds multiplies 64-bit signed
    integers, and its overflow is undefined, which is [None]; the count
    is then stored in a [size_t]. *)
Definition Unix_time (now : Z) : option Q :=
  let unix_timestamp := now in
  let microseconds := unix_timestamp * 1000000 in
  if int64_range microseconds then
    let unix_us := microseconds mod 2 ^ 64 in
    let sec := (inject_Z unix_us / inject_Z 1000000)%Q in
    Some sec
  else None.

End Time_utils.

(** ** Properties of the template, in exact arithmetic *)

Module ExactTheory.

Import Exact.

Local Open Scope ring_scope.

Section Algebra.

Variable F : fieldType.
Variables N M : nat.

Implicit Types (kf : Kalman_filter F N M) (u : 'cV[F]_M) (t : F).

(** C3. [Predict(u, t)] never fails and has no guard on [t]: whatever the
    stored timestamp, it takes [dt = t - last_timestamp], stores [t] as the
    new timestamp, and replaces the state by [A(dt) x + B(dt) u] and the
    covariance by [A(dt) P A(dt)^T + Q]. *)
Theorem Predict_time_update kf u t :
  let dt := t - m_last_timestamp kf in
  exists kf' : Kalman_filter F N M,
    [/\ Predict_call u t kf = Returns kf',
        m_last_timestamp kf' = t,
        m_x kf' = m_A kf dt *m m_x kf + m_B kf dt *m u
      & m_P kf' = m_A kf dt *m m_P kf *m (m_A kf dt)^T + m_Q kf].
Proof. by exists (Predict u t kf). Qed.

(** The members a call of [Predict] does not assign. *)
Lemma Predict_model kf u t :
  [/\ m_A (Predict u t kf) = m_A kf,
      m_B (Predict u t kf) = m_B kf
    & m_Q (Predict u t kf) = m_Q kf].
Proof. by []. Qed.

(** C4, as the code has it. With [A(0) = I] and [B(0) = 0], a second
    [Predict] at the timestamp of the first leaves [x] unchanged and adds the
    constant process noise to the covariance: [P] becomes [P + Q]. *)
Theorem Predict_same_timestamp kf u u' t :
  m_A kf 0 = 1%:M -> m_B kf 0 = 0 ->
  let kf1 := Predict u t kf in
  let kf2 := Predict u' t kf1 in
  m_x kf2 = m_x kf1 /\ m_P kf2 = m_P kf1 + m_Q kf1.
Proof.
move=> A0 B0 /=; rewrite subrr A0 B0.
by rewrite !mul1mx mul0mx addr0 trmx1 mulmx1.
Qed.

(** When there is no process noise the second call changes nothing. *)
Lemma Predict_same_timestamp_noiseless kf u u' t :
  m_A kf 0 = 1%:M -> m_B kf 0 = 0 -> m_Q kf = 0 ->
  let kf1 := Predict u t kf in
  Predict u' t kf1 = kf1.
Proof.
move=> A0 B0 Q0 /=; rewrite /Predict /= subrr A0 B0 Q0.
by rewrite !mul1mx !mul0mx !addr0 trmx1 !mulmx1.
Qed.

Variable inverse : forall U : nat, 'M[F]_U -> 'M[F]_U.

Hypothesis inverseE :
  forall (U : nat) (S : 'M[F]_U), S \in unitmx -> inverse S = invmx S.

(** The two members [Update] assigns, in terms of its locals. *)
Lemma Update_x U (z : 'cV[F]_U) (H : 'M[F]_(U, N)) (R : 'M[F]_U) kf :
  m_x (Update inverse z H R kf) =
  m_x kf + kalman_gain inverse H R kf *m innovation z H kf.
Proof. by []. Qed.

Lemma Update_P U (z : 'cV[F]_U) (H : 'M[F]_(U, N)) (R : 'M[F]_U) kf :
  m_P (Update inverse z H R kf) =
  (1%:M - kalman_gain inverse H R kf *m H) *m m_P kf.
Proof. by []. Qed.

Lemma kalman_gainE U (H : 'M[F]_(U, N)) (R : 'M[F]_U) kf :
  innovation_covariance H R kf \in unitmx ->
  kalman_gain inverse H R kf =
  m_P kf *m H^T *m invmx (H *m m_P kf *m H^T + R).
Proof. by move=> S_unit; rewrite /kalman_gain inverseE. Qed.

(** C2. When [S = H P H^T + R] is invertible, [Update(z, H, R)] sets the
    state to [x + K y] and the covariance to [(I - K H) P], where
    [y = z - H x] and [K = P H^T S^-1]. *)
Theorem Update_measurement_update U (z : 'cV[F]_U) (H : 'M[F]_(U, N))
    (R : 'M[F]_U) kf :
  let y := z - H *m m_x kf in
  let S := H *m m_P kf *m H^T + R in
  let K := m_P kf *m H^T *m invmx S in
  S \in unitmx ->
  m_x (Update inverse z H R kf) = m_x kf + K *m y /\
  m_P (Update inverse z H R kf) = (1%:M - K *m H) *m m_P kf.
Proof. by move=> y S K S_unit; rewrite /= kalman_gainE. Qed.

(** C10. An observation equal to the predicted one, [z = H x], leaves the
    state estimate as it is, while the covariance still becomes
    [(I - K H) P]. *)
Theorem Update_zero_innovation U (z : 'cV[F]_U) (H : 'M[F]_(U, N))
    (R : 'M[F]_U) kf :
  let S := H *m m_P kf *m H^T + R in
  let K := m_P kf *m H^T *m invmx S in
  z = H *m m_x kf -> S \in unitmx ->
  m_x (Update inverse z H R kf) = m_x kf /\
  m_P (Update inverse z H R kf) = (1%:M - K *m H) *m m_P kf.
Proof.
move=> S K z_pred S_unit; rewrite /= kalman_gainE //; split=> //.
by rewrite /innovation z_pred subrr mulmx0 addr0.
Qed.

(** C9. The scalar overload is the generic [Update] at [U = 1], called on
    the 1x1 matrices that hold [z] and [R]: the filters that result are the
    same, member by member. *)
Theorem Update_scalar_is_Update (z : F) (H : 'rV[F]_N) (R : F)
    (zm : 'cV[F]_1) (Rm : 'M[F]_1) kf :
  zm 0 0 = z -> Rm 0 0 = R ->
  Update_scalar inverse z H R kf = Update inverse zm H Rm kf.
Proof.
move=> zmE RmE; rewrite /Update_scalar.
have -> : Matrix11 z = zm.
  by apply/matrixP=> i j; rewrite mxE !ord1.
have -> // : Matrix11 R = Rm.
by apply/matrixP=> i j; rewrite mxE !ord1.
Qed.

(** C8. [Update], [Set_error_covariance] and [Set_state_estimate] leave
    [last_timestamp] as it was. *)
Theorem last_timestamp_frame U (z : 'cV[F]_U) (H : 'M[F]_(U, N))
    (R : 'M[F]_U) (x p : 'M[F]_N) kf :
  [/\ m_last_timestamp (Update inverse z H R kf) = m_last_timestamp kf,
      m_last_timestamp (Set_error_covariance p kf) = m_last_timestamp kf
    & forall kf', Set_state_estimate x kf = Some kf' ->
      m_last_timestamp kf' = m_last_timestamp kf].
Proof.
split=> // kf'; rewrite /Set_state_estimate.
by case: (assign_NN_to_N1 x) => // x' [<-].
Qed.

End Algebra.

(** *** Covariance matrices stay covariance matrices *)

Section CovarianceInvariant.

Variable F : realFieldType.

Lemma symmetricD n (A B : 'M[F]_n) :
  symmetric A -> symmetric B -> symmetric (A + B).
Proof. by rewrite /symmetric linearD /= => -> ->. Qed.

Lemma symmetric_congruence m n (B : 'M[F]_(n, m)) (A : 'M[F]_m) :
  symmetric A -> symmetric (B *m A *m B^T).
Proof. by rewrite /symmetric !trmx_mul trmxK mulmxA => ->. Qed.

Lemma quadratic_formD n (A B : 'M[F]_n) v :
  quadratic_form (A + B) v = quadratic_form A v + quadratic_form B v.
Proof. by rewrite /quadratic_form mulmxDr mulmxDl mxE. Qed.

Lemma quadratic_form_congruence m n (B : 'M[F]_(n, m)) (A : 'M[F]_m) v :
  quadratic_form (B *m A *m B^T) v = quadratic_form A (B^T *m v).
Proof. by rewrite /quadratic_form trmx_mul trmxK !mulmxA. Qed.

Lemma covarianceD n (A B : 'M[F]_n) :
  covariance A -> covariance B -> covariance (A + B).
Proof.
move=> [symA psdA] [symB psdB]; split; first exact: symmetricD.
by move=> v; rewrite quadratic_formD addr_ge0.
Qed.

Lemma covariance_congruence m n (B : 'M[F]_(n, m)) (A : 'M[F]_m) :
  covariance A -> covariance (B *m A *m B^T).
Proof.
move=> [symA psdA]; split; first exact: symmetric_congruence.
by move=> v; rewrite quadratic_form_congruence.
Qed.

Lemma covariance_scalar n (a : F) : 0 <= a -> covariance (a%:M : 'M[F]_n).
Proof.
move=> a_ge0; split; first exact: tr_scalar_mx.
move=> v; rewrite /quadratic_form -mulmxA mul_scalar_mx -scalemxAr !mxE.
rewrite mulr_ge0 // sumr_ge0 // => i _.
by rewrite !mxE -expr2 sqr_ge0.
Qed.

Variables N M : nat.
Variable inverse : forall U : nat, 'M[F]_U -> 'M[F]_U.

Hypothesis inverseE :
  forall (U : nat) (S : 'M[F]_U), S \in unitmx -> inverse S = invmx S.

Implicit Types (kf : Kalman_filter F N M) (op : operation F N M).

(** [Predict] keeps the covariance a covariance. *)
Lemma covariance_Predict kf u t :
  covariance (m_P kf) -> covariance (m_Q kf) ->
  covariance (m_P (Predict u t kf)).
Proof.
by move=> covP covQ; apply: covarianceD => //; apply: covariance_congruence.
Qed.

(** With the gain [K = P H^T S^-1], the covariance [(I - K H) P] that
    [Update] stores has the Joseph form
    [(I - K H) P (I - K H)^T + K R K^T]. *)
Lemma Update_Joseph_form U (z : 'cV[F]_U) (H : 'M[F]_(U, N))
    (R : 'M[F]_U) kf :
  innovation_covariance H R kf \in unitmx ->
  let K := kalman_gain inverse H R kf in
  m_P (Update inverse z H R kf) =
  (1%:M - K *m H) *m m_P kf *m (1%:M - K *m H)^T + K *m R *m K^T.
Proof.
move=> S_unit K /=; rewrite -/K.
have KS : K *m innovation_covariance H R kf = m_P kf *m H^T.
  by rewrite /K /kalman_gain inverseE // -mulmxA mulVmx // mulmx1.
have KR : (1%:M - K *m H) *m m_P kf *m H^T = K *m R.
  rewrite mulmxBl mul1mx mulmxBl -KS /innovation_covariance mulmxDr.
  by rewrite !mulmxA addrC addKr.
rewrite linearB /= trmx1 trmx_mul mulmxBr mulmx1 !mulmxA KR.
by rewrite subrK.
Qed.

Lemma covariance_Update U (z : 'cV[F]_U) (H : 'M[F]_(U, N))
    (R : 'M[F]_U) kf :
  covariance (m_P kf) -> covariance R ->
  innovation_covariance H R kf \in unitmx ->
  covariance (m_P (Update inverse z H R kf)).
Proof.
move=> covP covR S_unit; rewrite Update_Joseph_form //.
by apply: covarianceD; apply: covariance_congruence.
Qed.

Lemma covariance_perform kf op :
  covariance (m_P kf) -> covariance (m_Q kf) -> well_conditioned kf op ->
  covariance (m_P (perform inverse kf op)) /\
  m_Q (perform inverse kf op) = m_Q kf.
Proof.
case: op => [u t|U z H R] covP covQ /=.
  by move=> _; split=> //; apply: covariance_Predict.
by case=> covR S_unit; split=> //; apply: covariance_Update.
Qed.

(** C7. From a symmetric positive semidefinite [P0], with [Q] and every [R]
    symmetric positive semidefinite, the covariance is symmetric and
    positive semidefinite after any finite sequence of [Predict] and
    [Update] calls whose innovation covariances are invertible. *)
Theorem covariance_invariant (ops : seq (operation F N M)) kf :
  covariance (m_P kf) -> covariance (m_Q kf) ->
  well_conditioned_run inverse ops kf ->
  symmetric (m_P (run inverse ops kf)) /\
  positive_semidefinite (m_P (run inverse ops kf)).
Proof.
elim: ops kf => [|op ops IH] kf //= covP covQ [wc_op wc_ops].
have [covP' Q'] := covariance_perform covP covQ wc_op.
by apply: IH => //; rewrite Q'.
Qed.

End CovarianceInvariant.

(** *** [Set_state_estimate] and the dimension of the state *)

Section SetState.

Variable F : fieldType.
Variable M : nat.

(** For [N = 1] the setter stores its argument, and the getter returns
    it. *)
Lemma Set_Get_state_estimate_N1 (x1 : 'M[F]_1) (kf : Kalman_filter F 1 M) :
  exists2 kf', Set_state_estimate x1 kf = Some kf'
             & Get_state_estimate kf' = x1.
Proof.
rewrite /Set_state_estimate /assign_NN_to_N1; case: eqP => // e.
by eexists; first by []; rewrite /Get_state_estimate /= castmx_id.
Qed.

(** C6, at the input where the code fails. For a state of dimension two or
    more [Set_state_estimate] cannot store any argument it accepts: its
    parameter is an NxN matrix, which Eigen refuses to assign to the Nx1
    state. *)
Theorem Set_state_estimate_rejected (n : nat) (x : 'M[F]_n.+2)
    (kf : Kalman_filter F n.+2 M) :
  Set_state_estimate x kf = None.
Proof. by rewrite /Set_state_estimate /assign_NN_to_N1; case: eqP. Qed.

End SetState.

(** *** One-dimensional filters *)

Section Scalar.

Variable F : fieldType.

Lemma Matrix11E (a : F) : Matrix11 a = a%:M.
Proof. by apply/matrixP=> i j; rewrite !mxE !ord1 eqxx mulr1n. Qed.

Lemma unitmx11 (a : F) : ((a%:M : 'M[F]_1) \in unitmx) = (a != 0).
Proof. by rewrite unitmxE det_scalar1 unitfE. Qed.

Lemma scalar_mx11_inj : injective (@scalar_mx F 1).
Proof. by move=> a b /matrixP /(_ 0 0); rewrite !mxE eqxx !mulr1n. Qed.

(** The scenario after [Predict(t = 1)]. *)
Lemma scenario_Predict :
  m_x (Predict_t 1 (scenario F)) = 0 /\
  m_P (Predict_t 1 (scenario F)) = (1 + 100^-1)%:M.
Proof.
rewrite /Predict_t /=; split; first by rewrite mulmx0 mul0mx addr0.
by rewrite mul1mx trmx1 mulmx1 -raddfD.
Qed.

(** The covariance of the scenario after [Predict(u = 0, t = 1)], and
    after a second one. *)
Lemma scenario_Predict_twice :
  m_P (Predict 0 1 (scenario F)) = (1 + 100^-1)%:M /\
  m_P (Predict 0 1 (Predict 0 1 (scenario F))) = (1 + 100^-1 + 100^-1)%:M.
Proof.
have P1 : m_P (Predict 0 1 (scenario F)) = (1 + 100^-1)%:M.
  by rewrite /= mul1mx trmx1 mulmx1 -raddfD.
split=> //.
rewrite [LHS]/= -[1%:M *m 1%:M *m _ + _]/(m_P (Predict 0 1 (scenario F))).
by rewrite P1 mul1mx trmx1 mulmx1 -raddfD.
Qed.

(** The innovation covariance of [H = 1], [R = r] for a scalar filter. *)
Lemma innovation_covariance11 (M : nat) (kf : Kalman_filter F 1 M) (p r : F) :
  m_P kf = p%:M ->
  innovation_covariance (1%:M : 'rV[F]_1) r%:M kf = (p + r)%:M.
Proof.
by move=> Pp; rewrite /innovation_covariance Pp mul1mx trmx1 mulmx1 -raddfD.
Qed.

End Scalar.

Section ScalarScenario.

Variable F : realFieldType.
Variable inverse : forall U : nat, 'M[F]_U -> 'M[F]_U.

Hypothesis inverseE :
  forall (U : nat) (S : 'M[F]_U), S \in unitmx -> inverse S = invmx S.

(** C5. The scalar scenario: after [Predict(t = 1)] the state is [0] and the
    covariance [1.01]; after [Update(z = 1, H = 1, R = 1)] the gain is
    [1.01 / 2.01 = 101 / 201], the state is the gain and the covariance is
    [(1 - K) * 1.01]; both round to [0.5025 = 201 / 400]. *)
Theorem scalar_scenario :
  let kf1 := Predict_t 1 (scenario F) in
  let K := kalman_gain inverse (1%:M : 'rV[F]_1) (Matrix11 1) kf1 in
  let kf2 := Update_scalar inverse 1 1%:M 1 kf1 in
  let half_ulp : F := (200 * 100)^-1 in
  [/\ m_x kf1 = 0 /\ m_P kf1 = (101 / 100)%:M,
      K = ((101 / 100) / (201 / 100))%:M /\ K = (101 / 201)%:M,
      m_x kf2 = (101 / 201)%:M /\
      m_P kf2 = ((1 - 101 / 201) * (101 / 100))%:M
    & `|101 / 201 - 201 / 400| <= half_ulp /\
      `|(1 - 101 / 201) * (101 / 100) - 201 / 400| <= half_ulp].
Proof.
move=> kf1 K kf2 half_ulp.
have [x1 P1] := scenario_Predict F; rewrite -/kf1 in x1 P1.
have P1' : m_P kf1 = (101 / 100)%:M by rewrite P1; congr _%:M; field.
have S1 : innovation_covariance 1%:M (Matrix11 1) kf1 = (201 / 100)%:M.
  rewrite Matrix11E (innovation_covariance11 _ P1').
  by congr _%:M; field.
have S1_unit : innovation_covariance 1%:M (Matrix11 1) kf1 \in unitmx.
  by rewrite S1 unitmx11 gt_eqF //; lra.
have K1 : K = ((101 / 100) / (201 / 100))%:M.
  rewrite /K /kalman_gain inverseE // S1 P1' invmx_scalar trmx1 mulmx1.
  by rewrite -scalar_mxM.
have K2 : K = (101 / 201)%:M by rewrite K1; congr _%:M; field.
split=> //.
- split.
    rewrite /kf2 /Update_scalar Update_x -/K x1 add0r.
    by rewrite /innovation x1 mulmx0 subr0 Matrix11E mulmx1.
  rewrite /kf2 /Update_scalar Update_P -/K K2 P1' mulmx1.
  by rewrite -raddfB /= -scalar_mxM.
- by split; rewrite ler_norml; apply/andP; split; rewrite /half_ulp; lra.
Qed.

End ScalarScenario.

(** *** The theorems at the scenario, over the rationals *)

Lemma exact_inverseE (F : fieldType) (U : nat) (S : 'M[F]_U) :
  S \in unitmx -> exact_inverse S = invmx S.
Proof. by []. Qed.

Lemma scenario_unit :
  innovation_covariance (1%:M : 'rV[rat]_1) 1%:M (scenario rat) \in unitmx.
Proof. by rewrite (@innovation_covariance11 _ _ _ 1) // unitmx11. Qed.

Lemma scenario_Predict_unit :
  innovation_covariance (1%:M : 'rV[rat]_1) (Matrix11 1)
    (Predict 0 1 (scenario rat)) \in unitmx.
Proof.
have [_ P1] := scenario_Predict rat.
by rewrite Matrix11E (innovation_covariance11 _ P1) unitmx11.
Qed.

Lemma Update_measurement_update_scenario :
  innovation_covariance (1%:M : 'rV[rat]_1) 1%:M (scenario rat) \in unitmx /\
  m_x (Update (@exact_inverse rat) 1%:M 1%:M 1%:M (scenario rat)) =
  m_x (scenario rat) +
  m_P (scenario rat) *m (1%:M)^T *m
    invmx (1%:M *m m_P (scenario rat) *m (1%:M)^T + 1%:M) *m
  (1%:M - 1%:M *m m_x (scenario rat)).
Proof.
split; first exact: scenario_unit.
by have [-> _] := Update_measurement_update (@exact_inverseE rat)
  (1%:M : 'cV_1) scenario_unit.
Defined.

Lemma Update_zero_innovation_scenario :
  [/\ (0 : 'cV[rat]_1) = 1%:M *m m_x (scenario rat),
      innovation_covariance (1%:M : 'rV[rat]_1) 1%:M (scenario rat) \in unitmx
    & m_x (Update (@exact_inverse rat) 0 1%:M 1%:M (scenario rat)) =
      m_x (scenario rat)].
Proof.
have z_pred : (0 : 'cV[rat]_1) = 1%:M *m m_x (scenario rat).
  by rewrite mulmx0.
split=> //; first exact: scenario_unit.
by have [-> _] := Update_zero_innovation (@exact_inverseE rat) z_pred
  scenario_unit.
Defined.

Lemma Predict_same_timestamp_scenario :
  [/\ m_A (scenario rat) 0 = 1%:M, m_B (scenario rat) 0 = 0
    & m_P (Predict 0 1 (Predict 0 1 (scenario rat))) =
      m_P (Predict 0 1 (scenario rat)) + m_Q (scenario rat)].
Proof.
split=> //.
by have [_ ->] := @Predict_same_timestamp rat 1 1 (scenario rat) 0 0 1
  (erefl _) (erefl _).
Defined.

(** C4, as stated, fails on the scenario: the second [Predict(t = 1)] moves
    the covariance from [1.01] to [1.02]. *)
Lemma Predict_same_timestamp_changes_P :
  [/\ m_A (scenario rat) 0 = 1%:M, m_B (scenario rat) 0 = 0,
      m_P (Predict 0 1 (scenario rat)) = (101 / 100)%:M,
      m_P (Predict 0 1 (Predict 0 1 (scenario rat))) = (102 / 100)%:M
    & m_P (Predict 0 1 (Predict 0 1 (scenario rat))) <>
      m_P (Predict 0 1 (scenario rat))].
Proof.
have [P1 P2] := scenario_Predict_twice rat.
split; [by [] | by [] | | |].
- by rewrite P1; congr _%:M; field.
- by rewrite P2; congr _%:M; field.
rewrite P2 P1 => /scalar_mx11_inj /eqP.
by rewrite addrC -subr_eq0 addrK invr_eq0 pnatr_eq0.
Qed.

Lemma scalar_scenario_rat :
  m_x (Update_scalar (@exact_inverse rat) 1 1%:M 1
         (Predict_t 1 (scenario rat))) = (101 / 201)%:M /\
  m_P (Update_scalar (@exact_inverse rat) 1 1%:M 1
         (Predict_t 1 (scenario rat))) = ((1 - 101 / 201) * (101 / 100))%:M.
Proof. by have [_ _ []] := scalar_scenario (@exact_inverseE rat). Defined.

Lemma Update_scalar_is_Update_scenario :
  [/\ (1%:M : 'cV[rat]_1) 0 0 = 1, (1%:M : 'M[rat]_1) 0 0 = 1
    & Update_scalar (@exact_inverse rat) 1 1%:M 1 (scenario rat) =
      Update (@exact_inverse rat) 1%:M 1%:M 1%:M (scenario rat)].
Proof.
have one11 : (1%:M : 'M[rat]_1) 0 0 = 1 by rewrite mxE.
by split=> //; apply: Update_scalar_is_Update.
Defined.

Lemma last_timestamp_frame_scenario :
  exists2 kf', Set_state_estimate 1%:M (scenario rat) = Some kf'
             & m_last_timestamp kf' = m_last_timestamp (scenario rat).
Proof.
have [_ _ frame] := last_timestamp_frame (@exact_inverse rat)
  (1%:M : 'cV_1) (1%:M : 'rV_1) (1%:M : 'M_1) 1%:M 1%:M (scenario rat).
have [kf' set_x _] := Set_Get_state_estimate_N1 1%:M (scenario rat).
by exists kf' => //; apply: frame.
Defined.

Lemma covariance_invariant_scenario :
  [/\ covariance (m_P (scenario rat)), covariance (m_Q (scenario rat)),
      well_conditioned_run (@exact_inverse rat) (scenario_calls rat)
        (scenario rat)
    & symmetric
        (m_P (run (@exact_inverse rat) (scenario_calls rat) (scenario rat)))
      /\ positive_semidefinite
        (m_P (run (@exact_inverse rat) (scenario_calls rat) (scenario rat)))].
Proof.
have covP : covariance (m_P (scenario rat)).
  by apply: covariance_scalar; exact: ler01.
have covQ : covariance (m_Q (scenario rat)).
  by apply: covariance_scalar; rewrite invr_ge0 ler0n.
have wc : well_conditioned_run (@exact_inverse rat) (scenario_calls rat)
    (scenario rat).
  split; first by [].
  split; last by [].
  split; last exact: scenario_Predict_unit.
  by rewrite Matrix11E; apply: covariance_scalar; exact: ler01.
split; [exact: covP | exact: covQ | exact: wc |].
exact: (covariance_invariant (@exact_inverseE rat) covP covQ wc).
Defined.

End ExactTheory.

(** ** Properties of the binary64 instance *)

Module Double1Theory.

Import Double1.

Local Open Scope float_scope.

(** The members [Update] assigns. *)
Lemma Update_members z H R kf :
  let y := z - H * m_x kf in
  let S := H * m_P kf * H + R in
  let K := m_P kf * H * (1 / S) in
  [/\ m_x (Update z H R kf) = m_x kf + K * y,
      m_P (Update z H R kf) = (1 - K * H) * m_P kf
    & m_last_timestamp (Update z H R kf) = m_last_timestamp kf].
Proof. by []. Qed.

(** Infinities and NaN propagate through the operations of [Update]. *)
Lemma not_finite_inverse a : is_zero a = true -> not_finite (inverse a) = true.
Proof.
rewrite /not_finite /is_zero /inverse div_spec /SF64div.
by case: (Prim2SF a).
Qed.

Lemma not_finite_mul_l a b : not_finite a = true -> not_finite (a * b) = true.
Proof.
rewrite /not_finite mul_spec /SF64mul.
by case: (Prim2SF a) => [?|?||? ? ?] //; case: (Prim2SF b).
Qed.

Lemma not_finite_mul_r a b : not_finite b = true -> not_finite (a * b) = true.
Proof.
rewrite /not_finite mul_spec /SF64mul.
by case: (Prim2SF b) => [?|?||? ? ?] //; case: (Prim2SF a).
Qed.

Lemma not_finite_add_r a b : not_finite b = true -> not_finite (a + b) = true.
Proof.
rewrite /not_finite add_spec /SF64add.
by case: (Prim2SF b) => [?|[]||? ? ?] //; case: (Prim2SF a) => [?|[]||? ? ?].
Qed.

Lemma not_finite_sub_r a b : not_finite b = true -> not_finite (a - b) = true.
Proof.
rewrite /not_finite sub_spec /SF64sub.
by case: (Prim2SF b) => [?|[]||? ? ?] //; case: (Prim2SF a) => [?|[]||? ? ?].
Qed.

(** When the innovation covariance is a zero, [1 / S] is an infinity and
    what [Update] stores in [x] and [P] is infinite or NaN, whatever the
    state and the observation. *)
Lemma Update_singular_not_finite z H R kf :
  is_zero (innovation_covariance H R kf) = true ->
  not_finite (m_x (Update z H R kf)) = true /\
  not_finite (m_P (Update z H R kf)) = true.
Proof.
move=> /not_finite_inverse inv_S.
have K_inf : not_finite (kalman_gain H R kf) = true.
  exact: not_finite_mul_r.
split.
  by apply: not_finite_add_r; apply: not_finite_mul_l.
by apply: not_finite_mul_l; apply: not_finite_sub_r; apply: not_finite_mul_l.
Qed.

(** The scenario, run on binary64 numbers: the state and the covariance
    after [Predict(t = 1)] are the numbers [0] and [1.01]; the gain, the
    state and the covariance after [Update(z = 1, H = 1, R = 1)] are within
    [0.00005] of [0.5025]. *)
Lemma scalar_scenario_binary64 :
  let kf1 := Predict_t 1 scenario in
  let kf2 := Update 1 1 1 kf1 in
  [/\ m_x kf1 = 0 /\ m_P kf1 = 1.01,
      within 0.00005 (kalman_gain 1 1 kf1) 0.5025 = true,
      within 0.00005 (m_x kf2) 0.5025 = true
    & within 0.00005 (m_P kf2) 0.5025 = true].
Proof. by vm_compute. Qed.

(** C1, as stated, fails on the scenario with the observation [z = 1],
    [H = 0], [R = 0]: the innovation covariance is [0], [Update] returns
    without an exception, and the state and the covariance it leaves are
    not the ones it found (both are NaN). *)
Lemma Update_singular_returns :
  [/\ innovation_covariance 0 0 scenario = 0,
      Update_call 1 0 0 scenario = Returns (Update 1 0 0 scenario),
      forall e, Update_call 1 0 0 scenario <> Throws e,
      is_nan (m_x (Update 1 0 0 scenario)) = true /\
      is_nan (m_P (Update 1 0 0 scenario)) = true
    & m_x (Update 1 0 0 scenario) <> m_x scenario /\
      m_P (Update 1 0 0 scenario) <> m_P scenario].
Proof.
split; [by [] | by [] | by [] | by split; vm_compute |].
by split; move/(congr1 is_nan); vm_compute.
Qed.

End Double1Theory.

(** ** [Update] has no failure path *)

(** C1, as the code has it. [Update] makes no test on the innovation
    covariance and raises nothing: for every state and every observation,
    singular [S] or not, the call returns, having replaced [x] by [x + K y]
    and [P] by [(I - K H) P], with [K = P H^T inverse(S)] computed from
    whatever the unchecked inverse gave.  On binary64 numbers a zero [S]
    makes the stored [x] and [P] infinite or NaN. *)
Theorem Update_always_returns :
  [/\ forall (F : fieldType) (N M : nat)
        (inverse : forall U : nat, 'M[F]_U -> 'M[F]_U) (U : nat)
        (z : 'cV[F]_U) (H : 'M[F]_(U, N)) (R : 'M[F]_U)
        (kf : Exact.Kalman_filter F N M),
      let y := (z - H *m Exact.m_x kf)%R in
      let S := (H *m Exact.m_P kf *m H^T + R)%R in
      let K := (Exact.m_P kf *m H^T *m inverse U S)%R in
      exists kf' : Exact.Kalman_filter F N M,
        [/\ Exact.Update_call inverse z H R kf = Returns kf',
            Exact.m_x kf' = (Exact.m_x kf + K *m y)%R
          & Exact.m_P kf' = ((1%:M - K *m H) *m Exact.m_P kf)%R],
      forall (z H R : float) (kf : Double1.Kalman_filter),
      let y := (z - H * Double1.m_x kf)%float in
      let S := (H * Double1.m_P kf * H + R)%float in
      let K := (Double1.m_P kf * H * (1 / S))%float in
      exists kf' : Double1.Kalman_filter,
        [/\ Double1.Update_call z H R kf = Returns kf',
            Double1.m_x kf' = (Double1.m_x kf + K * y)%float
          & Double1.m_P kf' = ((1 - K * H) * Double1.m_P kf)%float]
    & forall (z H R : float) (kf : Double1.Kalman_filter),
      Double1.is_zero (Double1.innovation_covariance H R kf) = true ->
      Double1.not_finite (Double1.m_x (Double1.Update z H R kf)) = true /\
      Double1.not_finite (Double1.m_P (Double1.Update z H R kf)) = true].
Proof.
split.
- by move=> F N M inverse U z H R kf; exists (Exact.Update inverse z H R kf).
- by move=> z H R kf; exists (Double1.Update z H R kf).
- exact: Double1Theory.Update_singular_not_finite.
Qed.

(** On the scenario, with the observation [z = 1], [H = 0], [R = 0]. *)
Lemma Update_always_returns_scenario :
  [/\ Double1.is_zero (Double1.innovation_covariance 0 0 Double1.scenario) = true,
      Double1.not_finite
        (Double1.m_x (Double1.Update 1 0 0 Double1.scenario)) = true
    & Double1.not_finite
        (Double1.m_P (Double1.Update 1 0 0 Double1.scenario)) = true].
Proof.
have S0 :
  Double1.is_zero (Double1.innovation_covariance 0 0 Double1.scenario) = true.
  by vm_compute.
have [_ _ lost] := Update_always_returns.
by have [x_lost P_lost] := lost 1%float _ _ _ S0.
Defined.

(** ** Further properties of the template, in exact arithmetic *)

Module ExactMore.

Import Exact.

Local Open Scope ring_scope.

Section Runs.

Variable F : fieldType.
Variables N M : nat.
Variable inverse : forall U : nat, 'M[F]_U -> 'M[F]_U.

Implicit Types (kf : Kalman_filter F N M) (op : operation F N M).

Lemma run_rcons ops op kf :
  run inverse (rcons ops op) kf = perform inverse (run inverse ops kf) op.
Proof. by rewrite /run -cats1 foldl_cat. Qed.

(** X1. No sequence of [Predict] and [Update] calls touches the process
    model: [A], [B] and [Q] are those of construction; and the timestamp the
    filter holds is the one of the last [Predict], or the initial one. *)
Theorem run_model_and_time (ops : seq (operation F N M)) kf :
  [/\ m_A (run inverse ops kf) = m_A kf,
      m_B (run inverse ops kf) = m_B kf,
      m_Q (run inverse ops kf) = m_Q kf
    & m_last_timestamp (run inverse ops kf) =
      last (m_last_timestamp kf) (pmap (@Predict_time F N M) ops)].
Proof.
elim/last_ind: ops => [|ops op [IHA IHB IHQ IHt]] //.
rewrite run_rcons -cats1 pmap_cat last_cat /=.
by case: op => [u t|U z H R] /=; rewrite ?IHA ?IHB ?IHQ ?IHt; split.
Qed.

Lemma perform_forget_data op kf kf' :
  same_but_x kf kf' ->
  same_but_x (perform inverse kf op) (perform inverse kf' (forget_data op)).
Proof.
case=> eA eB eQ eP et.
case: op => [u t|U z H R]; split; rewrite /= ?eA ?eB ?eQ ?eP ?et //.
by rewrite /kalman_gain /innovation_covariance eP.
Qed.

Lemma run_forget_data ops kf kf' :
  same_but_x kf kf' ->
  same_but_x (run inverse ops kf) (run inverse (map (@forget_data F N M) ops) kf').
Proof.
elim: ops kf kf' => [|op ops IH] kf kf' same //=.
by apply: IH; apply: perform_forget_data.
Qed.

(** X2. The covariance does not depend on the data: after any sequence of
    calls it is the one the same calls give with every control input and
    every observation replaced by zero, from any initial state estimate. *)
Theorem covariance_independent_of_data (ops : seq (operation F N M))
    (x0' : 'cV[F]_N) kf :
  m_P (run inverse ops kf) =
  m_P (run inverse (map (@forget_data F N M) ops)
         (Build_Kalman_filter (m_A kf) (m_B kf) (m_Q kf) x0' (m_P kf)
            (m_last_timestamp kf))).
Proof.
set kf' := Build_Kalman_filter _ _ _ _ _ _.
have same : same_but_x kf kf' by split.
by have [] := run_forget_data ops same.
Qed.

End Runs.

Section ConstantModel.

Variable F : fieldType.
Variables N M : nat.



End ConstantModel.

Section Observation.

Variable F : fieldType.
Variables N M : nat.
Variable inverse : forall U : nat, 'M[F]_U -> 'M[F]_U.

Hypothesis inverseE :
  forall (U : nat) (S : 'M[F]_U), S \in unitmx -> inverse S = invmx S.

Implicit Types (kf : Kalman_filter F N M).

(** What is left of an observation after the gain has been applied:
    [I - H K = R S^-1]. *)
Lemma observed_gain U (H : 'M[F]_(U, N)) (R : 'M[F]_U) kf :
  innovation_covariance H R kf \in unitmx ->
  1%:M - H *m kalman_gain inverse H R kf =
  R *m invmx (innovation_covariance H R kf).
Proof.
move=> S_unit; rewrite /kalman_gain inverseE // !mulmxA.
have -> : H *m m_P kf *m H^T = innovation_covariance H R kf - R.
  by rewrite /innovation_covariance addrK.
by rewrite mulmxBl mulmxV // opprB addrC subrK.
Qed.

(** X4. After [Update] the estimate misses the observation by [R S^-1]
    times the innovation, and the covariance seen through [H] is
    [R S^-1 H P]. *)
Theorem Update_residual U (z : 'cV[F]_U) (H : 'M[F]_(U, N))
    (R : 'M[F]_U) kf :
  let S := innovation_covariance H R kf in
  S \in unitmx ->
  z - H *m m_x (Update inverse z H R kf) =
    R *m invmx S *m (z - H *m m_x kf) /\
  H *m m_P (Update inverse z H R kf) = R *m invmx S *m H *m m_P kf.
Proof.
move=> S S_unit; rewrite -(observed_gain S_unit) /=; split.
  by rewrite /innovation mulmxDr opprD addrA mulmxBl mul1mx mulmxA.
by rewrite !mulmxBl !mul1mx mulmxBr !mulmxA.
Qed.

(** X5. A noiseless observation, [R = 0], is reproduced by the updated
    estimate, [H x = z], and no uncertainty is left in what was observed,
    [H P = 0]. *)
Theorem Update_noiseless_observation U (z : 'cV[F]_U) (H : 'M[F]_(U, N)) kf :
  innovation_covariance H 0 kf \in unitmx ->
  H *m m_x (Update inverse z H 0 kf) = z /\
  H *m m_P (Update inverse z H 0 kf) = 0.
Proof.
move=> S_unit; have HK := observed_gain S_unit; rewrite mul0mx in HK.
have {}HK : H *m kalman_gain inverse H 0 kf = 1%:M.
  by apply/eqP; rewrite eq_sym -subr_eq0 HK.
split; rewrite /=.
  rewrite mulmxDr mulmxA HK mul1mx /innovation.
  by rewrite addrC subrK.
by rewrite mulmxA mulmxBr mulmx1 mulmxA HK mul1mx subrr mul0mx.
Qed.

(** X20. A noiseless observation cannot be repeated: after [Update] with
    [R = 0], the innovation covariance of the same [H] with [R = 0] is the
    zero matrix, so a second such [Update] inverts a singular matrix. *)
Theorem Update_noiseless_twice_singular U (z : 'cV[F]_U) (H : 'M[F]_(U, N)) kf :
  innovation_covariance H 0 kf \in unitmx ->
  innovation_covariance H 0 (Update inverse z H 0 kf) = 0.
Proof.
move=> S_unit; have HK := observed_gain S_unit; rewrite mul0mx in HK.
rewrite /innovation_covariance addr0 /= !mulmxA mulmxBr mulmx1 mulmxA.
have -> : H *m kalman_gain inverse H 0 kf = 1%:M.
  by apply/eqP; rewrite eq_sym -subr_eq0 HK.
by rewrite mul1mx subrr !mul0mx.
Qed.

(** X6. When the state is uncorrelated with what is observed, [P H^T = 0]
    (so, when [P = 0]), and [R] is invertible, [Update] changes nothing:
    a filter that is certain of its estimate is deaf to observations. *)
Theorem Update_uncorrelated U (z : 'cV[F]_U) (H : 'M[F]_(U, N))
    (R : 'M[F]_U) kf :
  m_P kf *m H^T = 0 -> R \in unitmx ->
  Update inverse z H R kf = kf.
Proof.
move=> PH0 _; rewrite /Update /kalman_gain PH0 !mul0mx addr0 subr0 mul1mx.
by case: kf {PH0}.
Qed.

End Observation.

Section Uncertainty.

Variable F : realFieldType.
Variables N M : nat.
Variable inverse : forall U : nat, 'M[F]_U -> 'M[F]_U.

Hypothesis inverseE :
  forall (U : nat) (S : 'M[F]_U), S \in unitmx -> inverse S = invmx S.

Implicit Types (kf : Kalman_filter F N M).

Lemma quadratic_formB n (A B : 'M[F]_n) v :
  quadratic_form (A - B) v = quadratic_form A v - quadratic_form B v.
Proof. by rewrite /quadratic_form mulmxBr mulmxBl !mxE. Qed.

(** The inverse of an invertible covariance matrix is positive
    semidefinite. *)
Lemma positive_semidefinite_invmx n (S : 'M[F]_n) :
  covariance S -> S \in unitmx -> positive_semidefinite (invmx S).
Proof.
move=> [symS psdS] S_unit v.
have -> : quadratic_form (invmx S) v = quadratic_form S (invmx S *m v).
  by rewrite /quadratic_form trmx_mul trmx_inv symS !mulmxA mulmxKV.
exact: psdS.
Qed.

(** X7. An observation never adds uncertainty: with [P] and [R] symmetric
    positive semidefinite and [S] invertible, the covariance after [Update]
    is below the one before, in every direction [v]. *)
Theorem Update_reduces_uncertainty U (z : 'cV[F]_U) (H : 'M[F]_(U, N))
    (R : 'M[F]_U) kf (v : 'cV[F]_N) :
  covariance (m_P kf) -> covariance R ->
  innovation_covariance H R kf \in unitmx ->
  quadratic_form (m_P (Update inverse z H R kf)) v <=
  quadratic_form (m_P kf) v.
Proof.
move=> covP covR S_unit.
have covS : covariance (innovation_covariance H R kf).
  by apply: ExactTheory.covarianceD => //; apply: ExactTheory.covariance_congruence.
have [symP _] := covP.
rewrite /= /kalman_gain inverseE // mulmxBl mul1mx quadratic_formB.
rewrite lerBlDr lerDl.
have -> : m_P kf *m H^T *m invmx (innovation_covariance H R kf) *m H *m m_P kf
        = (m_P kf *m H^T) *m invmx (innovation_covariance H R kf)
          *m (m_P kf *m H^T)^T.
  by rewrite trmx_mul trmxK symP !mulmxA.
rewrite ExactTheory.quadratic_form_congruence.
exact: positive_semidefinite_invmx.
Qed.

End Uncertainty.

Section ScalarUpdate.

Variable F : realFieldType.
Variable M : nat.
Variable inverse : forall U : nat, 'M[F]_U -> 'M[F]_U.

Hypothesis inverseE :
  forall (U : nat) (S : 'M[F]_U), S \in unitmx -> inverse S = invmx S.

(** X8. The scalar overload on a one-dimensional filter that observes its
    state directly ([H = 1]), with variance [p >= 0] and observation noise
    [r > 0]: the new estimate is the convex combination
    [(1 - k) x + k z] of the old one and the observation, with
    [k = p / (p + r)] in [0, 1), and the new variance is
    [(1 - k) p = k r], below both [p] and [r]. *)
Theorem Update_scalar_convex (z r : F) (kf : Kalman_filter F 1 M) :
  let x := m_x kf 0 0 in
  let p := m_P kf 0 0 in
  let k := p / (p + r) in
  let kf' := Update_scalar inverse z 1%:M r kf in
  0 <= p -> 0 < r ->
  [/\ 0 <= k < 1,
      m_x kf' 0 0 = (1 - k) * x + k * z,
      m_P kf' 0 0 = (1 - k) * p
    & m_P kf' 0 0 = k * r].
Proof.
move=> x p k kf' p_ge0 r_gt0.
have pr_gt0 : 0 < p + r by rewrite ltr_wpDl.
have xE : m_x kf = x%:M by rewrite [LHS]mx11_scalar.
have pE : m_P kf = p%:M by rewrite [LHS]mx11_scalar.
have SE : innovation_covariance (1%:M : 'rV[F]_1) (Matrix11 r) kf
          = (p + r)%:M.
  by rewrite ExactTheory.Matrix11E (ExactTheory.innovation_covariance11 _ pE).
have S_unit : innovation_covariance (1%:M : 'rV[F]_1) (Matrix11 r) kf
              \in unitmx.
  by rewrite SE ExactTheory.unitmx11 gt_eqF.
have KE : kalman_gain inverse (1%:M : 'rV[F]_1) (Matrix11 r) kf = k%:M.
  rewrite /kalman_gain inverseE // SE pE invmx_scalar trmx1 mulmx1.
  by rewrite -scalar_mxM.
have x'E : m_x kf' 0 0 = (1 - k) * x + k * z.
  rewrite /kf' /Update_scalar ExactTheory.Update_x KE /innovation xE.
  rewrite ExactTheory.Matrix11E mul1mx -raddfB /= -scalar_mxM -raddfD /=.
  by rewrite mxE eqxx mulr1n; ring.
have p'E : m_P kf' 0 0 = (1 - k) * p.
  rewrite /kf' /Update_scalar ExactTheory.Update_P KE pE mulmx1.
  by rewrite -raddfB /= -scalar_mxM mxE eqxx mulr1n.
have k_ge0 : 0 <= k by apply: divr_ge0 => //; apply: ltW.
have k_lt1 : k < 1 by rewrite /k ltr_pdivrMr // mul1r ltrDl.
split=> //; first by rewrite k_ge0.
by rewrite p'E /k; field by rewrite gt_eqF.
Qed.

End ScalarUpdate.

(** *** The theorems at the scenario, over the rationals *)

Lemma scenario_noiseless_unit :
  innovation_covariance (1%:M : 'rV[rat]_1) 0 (scenario rat) \in unitmx.
Proof.
by rewrite /innovation_covariance /= mul1mx trmx1 mulmx1 addr0 unitmx1.
Qed.

Lemma Update_residual_scenario :
  innovation_covariance (1%:M : 'rV[rat]_1) 1%:M (scenario rat) \in unitmx /\
  1%:M *m m_P (Update (@exact_inverse rat) 1%:M 1%:M 1%:M (scenario rat)) =
  1%:M *m invmx (innovation_covariance (1%:M : 'rV[rat]_1) 1%:M (scenario rat))
  *m 1%:M *m m_P (scenario rat).
Proof.
split; first exact: ExactTheory.scenario_unit.
by have [_ ->] := Update_residual (@ExactTheory.exact_inverseE rat)
  (1%:M : 'cV_1) ExactTheory.scenario_unit.
Defined.

Lemma Update_noiseless_observation_scenario :
  innovation_covariance (1%:M : 'rV[rat]_1) 0 (scenario rat) \in unitmx /\
  1%:M *m m_x (Update (@exact_inverse rat) 1%:M 1%:M 0 (scenario rat)) = 1%:M.
Proof.
split; first exact: scenario_noiseless_unit.
by have [-> _] := Update_noiseless_observation
  (@ExactTheory.exact_inverseE rat) (1%:M : 'cV_1) scenario_noiseless_unit.
Defined.

Lemma Update_noiseless_twice_singular_scenario :
  innovation_covariance (1%:M : 'rV[rat]_1) 0 (scenario rat) \in unitmx /\
  innovation_covariance (1%:M : 'rV[rat]_1) 0
    (Update (@exact_inverse rat) 1%:M 1%:M 0 (scenario rat)) = 0.
Proof.
split; first exact: scenario_noiseless_unit.
exact: (Update_noiseless_twice_singular (@ExactTheory.exact_inverseE rat)
          (1%:M : 'cV_1) scenario_noiseless_unit).
Defined.

Lemma Update_uncorrelated_certain :
  [/\ m_P (new 1%:M 0 0 0 0 0 : Kalman_filter rat 1 1) *m (1%:M)^T = 0,
      (1%:M : 'M[rat]_1) \in unitmx
    & Update (@exact_inverse rat) (1%:M : 'cV_1) 1%:M 1%:M
        (new 1%:M 0 0 0 0 0 : Kalman_filter rat 1 1) =
      new 1%:M 0 0 0 0 0].
Proof.
have PH0 : m_P (new 1%:M 0 0 0 0 0 : Kalman_filter rat 1 1) *m (1%:M)^T = 0.
  by rewrite mul0mx.
split=> //; first exact: unitmx1.
exact: (Update_uncorrelated (@exact_inverse rat) (1%:M : 'cV_1) PH0
          (unitmx1 _ _)).
Defined.

Lemma Update_reduces_uncertainty_scenario :
  [/\ covariance (m_P (scenario rat)), covariance (1%:M : 'M[rat]_1),
      innovation_covariance (1%:M : 'rV[rat]_1) 1%:M (scenario rat) \in unitmx
    & quadratic_form
        (m_P (Update (@exact_inverse rat) 1%:M 1%:M 1%:M (scenario rat))) 1%:M
      <= quadratic_form (m_P (scenario rat)) 1%:M].
Proof.
have cov1 : covariance (1%:M : 'M[rat]_1).
  by apply: ExactTheory.covariance_scalar; exact: ler01.
split=> //; first exact: ExactTheory.scenario_unit.
apply: (Update_reduces_uncertainty (@ExactTheory.exact_inverseE rat)) => //.
exact: ExactTheory.scenario_unit.
Defined.

Lemma Update_scalar_convex_scenario :
  [/\ 0 <= m_P (scenario rat) 0 0, 0 < (1 : rat)
    & m_P (Update_scalar (@exact_inverse rat) 1 1%:M 1 (scenario rat)) 0 0 =
      m_P (scenario rat) 0 0 / (m_P (scenario rat) 0 0 + 1) * 1].
Proof.
have p_ge0 : 0 <= m_P (scenario rat) 0 0 by rewrite mxE eqxx mulr1n ler01.
have r_gt0 : 0 < (1 : rat) by exact: ltr01.
split=> //.
by have [_ _ _ ->] := Update_scalar_convex (@ExactTheory.exact_inverseE rat)
  1 p_ge0 r_gt0.
Defined.

End ExactMore.

(** ** Further properties of the binary64 instance *)

Module Double1More.

Import Double1 Double1Theory.

Local Open Scope float_scope.

Lemma not_finite_add_l a b : not_finite a = true -> not_finite (a + b) = true.
Proof.
rewrite /not_finite add_spec /SF64add.
by case: (Prim2SF a) => [?|[]||? ? ?] //; case: (Prim2SF b) => [?|[]||? ? ?].
Qed.

Lemma not_finite_x_perform kf op :
  not_finite (m_x kf) = true -> not_finite (m_x (perform kf op)) = true.
Proof.
case: op => [u t|z H R] x_lost /=.
  by apply: not_finite_add_l; apply: not_finite_mul_r.
exact: not_finite_add_l.
Qed.

Lemma not_finite_P_perform kf op :
  not_finite (m_P kf) = true -> not_finite (m_P (perform kf op)) = true.
Proof.
case: op => [u t|z H R] P_lost /=.
  by apply: not_finite_add_l; apply: not_finite_mul_l; apply: not_finite_mul_r.
exact: not_finite_mul_r.
Qed.

Lemma not_finite_P_Update z H R kf :
  not_finite (m_P kf) = true -> not_finite (m_x (Update z H R kf)) = true.
Proof.
move=> P_lost; apply: not_finite_add_r; apply: not_finite_mul_l.
by apply: not_finite_mul_l; apply: not_finite_mul_l.
Qed.

(** X9. On binary64 numbers a state estimate that is infinite or NaN stays
    so through every later [Predict] and [Update]. *)
Theorem not_finite_x_persists (ops : seq operation) kf :
  not_finite (m_x kf) = true -> not_finite (m_x (run ops kf)) = true.
Proof.
elim: ops kf => [|op ops IH] kf //= x_lost.
by apply: IH; apply: not_finite_x_perform.
Qed.

(** X10. On binary64 numbers a covariance that is infinite or NaN stays so
    through every later [Predict] and [Update], and the state estimate is
    infinite or NaN from the first [Update] on. *)
Theorem not_finite_P_persists (ops : seq operation) kf :
  not_finite (m_P kf) = true ->
  not_finite (m_P (run ops kf)) = true /\
  (has is_Update ops -> not_finite (m_x (run ops kf)) = true).
Proof.
elim: ops kf => [|op ops IH] kf //= P_lost.
have [P_ops x_ops] := IH _ (not_finite_P_perform op P_lost).
split=> //; case: op {P_ops} x_ops => [u t|z H R] //= _ _.
apply: not_finite_x_persists.
exact: (not_finite_P_Update z H R P_lost).
Qed.

(** The filter left by the singular update of the scenario, through
    [Predict(t = 2)] and [Update(z = 1, H = 1, R = 1)]. *)
Lemma not_finite_x_persists_scenario :
  not_finite (m_x (Update 1 0 0 scenario)) = true /\
  not_finite
    (m_x (run [:: Call_Predict 0 2; Call_Update 1 1 1]
            (Update 1 0 0 scenario))) = true.
Proof.
have x_lost : not_finite (m_x (Update 1 0 0 scenario)) = true by vm_compute.
split; first exact: x_lost.
exact: (not_finite_x_persists [:: Call_Predict 0 2; Call_Update 1 1 1] x_lost).
Defined.

Lemma not_finite_P_persists_scenario :
  not_finite (m_P (Update 1 0 0 scenario)) = true /\
  not_finite
    (m_P (run [:: Call_Predict 0 2; Call_Update 1 1 1]
            (Update 1 0 0 scenario))) = true.
Proof.
have P_lost : not_finite (m_P (Update 1 0 0 scenario)) = true by vm_compute.
split; first exact: P_lost.
have [P_ops _] := not_finite_P_persists
  [:: Call_Predict 0 2; Call_Update 1 1 1] P_lost.
exact: P_ops.
Defined.

End Double1More.

(** ** Properties of the error log *)

Module ErrlogTheory.

Import Errlog.
Import Ascii.AsciiSyntax String.StringSyntax NArith ZArith.

Section Strings.

Implicit Types (s : std_string) (c : Ascii.ascii).

Lemma fits_size_tP s : reflect (N.lt (N.of_nat (size s)) npos) (fits_size_t s).
Proof. exact: N.ltb_spec0. Qed.

Lemma fits_size_t_cat s1 s2 : fits_size_t (s1 ++ s2) -> fits_size_t s1.
Proof.
move=> /fits_size_tP fits; apply/fits_size_tP.
by move: fits; rewrite size_cat -plusE; lia.
Qed.

(** The last occurrence of a character splits the string. *)
Lemma last_occurrence c s :
  c \notin s \/ exists s1 s2, s = s1 ++ c :: s2 /\ c \notin s2.
Proof.
elim: s => [|x s [c_s|[s1 [s2 [-> c_s2]]]]]; first by left.
  case: (eqVneq c x) => [<-|c_x]; first by right; exists [::], s.
  by left; rewrite inE negb_or c_x.
by right; exists (x :: s1), s2.
Qed.

Lemma find_last_of_notin c s : c \notin s -> find_last_of s c = npos.
Proof. by rewrite /find_last_of => /negPf ->. Qed.

Lemma find_last_of_cat c s1 s2 :
  c \notin s2 -> find_last_of (s1 ++ c :: s2) c = N.of_nat (size s1).
Proof.
move=> c_s2; rewrite /find_last_of mem_cat inE eqxx orbT.
rewrite rev_cat rev_cons -cats1 -catA index_cat mem_rev (negPf c_s2) /=.
by rewrite eqxx addn0 size_rev size_cat /= addnS subSS addnK.
Qed.

Lemma substr_prefix s (k : nat) :
  leq k (size s) -> substr s 0 (N.of_nat k) = Some (take k s).
Proof.
move=> /ssrnat.leP k_s; rewrite /substr /= drop0.
have -> : N.ltb (N.of_nat (size s)) 0 = false by apply/N.ltb_ge; lia.
have -> : N.min (N.of_nat k) (N.of_nat (size s) - 0) = N.of_nat k by lia.
by rewrite Nnat.Nat2N.id.
Qed.

Lemma substr_all s : fits_size_t s -> substr s 0 npos = Some s.
Proof.
move=> /fits_size_tP fits; rewrite /substr /= drop0.
have -> : N.ltb (N.of_nat (size s)) 0 = false by apply/N.ltb_ge; lia.
have -> : N.min npos (N.of_nat (size s) - 0) = N.of_nat (size s) by lia.
by rewrite Nnat.Nat2N.id take_size.
Qed.

Lemma substr_suffix s (k : nat) :
  fits_size_t s -> leq k (size s) ->
  substr s (N.of_nat k) npos = Some (drop k s).
Proof.
move=> /fits_size_tP fits /ssrnat.leP k_s; rewrite /substr.
have -> : N.ltb (N.of_nat (size s)) (N.of_nat k) = false.
  by apply/N.ltb_ge; lia.
have -> : N.min npos (N.of_nat (size s) - N.of_nat k)
          = N.of_nat (size s - k).
  by rewrite -minusE; lia.
by rewrite !Nnat.Nat2N.id take_oversize // size_drop.
Qed.

Lemma size_t_add_npos : size_t_add npos 1 = 0%num.
Proof. by []. Qed.

Lemma size_t_add_succ (k : nat) :
  N.lt (N.of_nat k) npos -> size_t_add (N.of_nat k) 1 = N.of_nat k.+1.
Proof.
rewrite /npos /size_t_add => k_npos.
by rewrite N.mod_small; lia.
Qed.

(** The part of a signature before its last parenthesis. *)
Lemma cut_arguments s1 s2 :
  "("%char \notin s2 -> fits_size_t (s1 ++ "("%char :: s2) ->
  substr (s1 ++ "("%char :: s2) 0 (find_last_of (s1 ++ "("%char :: s2) "("%char)
  = Some s1.
Proof.
move=> no fits; rewrite find_last_of_cat // substr_prefix ?take_size_cat //.
by rewrite size_cat leq_addr.
Qed.

(** The part of a string after its last space. *)
Lemma cut_scope s1 s2 :
  " "%char \notin s2 -> fits_size_t (s1 ++ " "%char :: s2) ->
  substr (s1 ++ " "%char :: s2)
    (size_t_add (find_last_of (s1 ++ " "%char :: s2) " "%char) 1) npos
  = Some s2.
Proof.
move=> no fits; rewrite find_last_of_cat //.
have s1_npos : N.lt (N.of_nat (size s1)) npos.
  by move/fits_size_tP: fits; rewrite size_cat -plusE; lia.
rewrite (size_t_add_succ s1_npos).
have le_s : leq (size s1).+1 (size (s1 ++ " "%char :: s2)).
  by rewrite size_cat /= addnS ltnS leq_addr.
rewrite (substr_suffix fits le_s).
by rewrite -cat_rcons -(size_rcons s1 " "%char) drop_size_cat.
Qed.

Lemma cut_no_scope s :
  " "%char \notin s -> fits_size_t s ->
  substr s (size_t_add (find_last_of s " "%char) 1) npos = Some s.
Proof.
by move=> no fits; rewrite find_last_of_notin // size_t_add_npos substr_all.
Qed.

Lemma cut_no_arguments s :
  "("%char \notin s -> fits_size_t s ->
  substr s 0 (find_last_of s "("%char) = Some s.
Proof. by move=> no fits; rewrite find_last_of_notin // substr_all. Qed.

(** X11. [get_msg_prefix] never leaves through [std::out_of_range]: for
    every magnitude and every scope string it returns the level text
    followed by a bracketed piece of the scope string that holds no space. *)
Theorem get_msg_prefix_shape (mag : EMag) (curr_func : std_string) :
  fits_size_t curr_func ->
  exists pre func rest : std_string,
    [/\ curr_func = pre ++ func ++ rest,
        get_msg_prefix mag curr_func =
        Some (level_prefix mag ++ text "[" ++ func ++ text "] ")
      & " "%char \notin func].
Proof.
move=> fits; rewrite /get_msg_prefix.
have [func_no_args [rest [curr_funcE ->]]] :
  exists func_no_args rest, curr_func = func_no_args ++ rest /\
    substr curr_func 0 (find_last_of curr_func "("%char) = Some func_no_args.
  case: (last_occurrence "("%char curr_func) => [no|[s1 [s2 [sE no]]]].
    by exists curr_func, [::]; rewrite cats0 cut_no_arguments.
  by exists s1, ("("%char :: s2); move: fits; rewrite sE => /(cut_arguments no) ->.
have {}fits : fits_size_t func_no_args.
  by move: fits; rewrite curr_funcE; apply: fits_size_t_cat.
case: (last_occurrence " "%char func_no_args) => [no|[s1 [s2 [sE no]]]].
  exists [::], func_no_args, rest.
  by rewrite cut_no_scope.
exists (rcons s1 " "%char), s2, rest.
move: fits; rewrite curr_funcE sE => /(cut_scope no) ->.
by rewrite cat_rcons -catA.
Qed.

(** X12. On the signature of a function, an optional return type, the
    qualified name and the arguments in parentheses, where the name holds
    no space and the arguments no opening parenthesis, the prefix is the
    level text and the name in brackets. *)
Theorem get_msg_prefix_signature (mag : EMag) (ret : option std_string)
    (name args : std_string) :
  let curr_func :=
    (if ret is Some r then rcons r " "%char else [::]) ++ name ++
    "("%char :: args in
  " "%char \notin name -> "("%char \notin args -> fits_size_t curr_func ->
  get_msg_prefix mag curr_func =
  Some (level_prefix mag ++ text "[" ++ name ++ text "] ").
Proof.
move=> curr_func; rewrite {}/curr_func catA => no_space no_paren fits.
rewrite /get_msg_prefix cut_arguments //.
have {}fits := fits_size_t_cat fits.
case: ret fits => [r|] /= fits; last by rewrite cut_no_scope.
by move: fits; rewrite cat_rcons => fits; rewrite cut_scope.
Qed.

(** X13. A scope string with neither a parenthesis nor a space is taken
    whole: both searches return [npos], and [npos + 1] wraps to [0]. *)
Theorem get_msg_prefix_plain (mag : EMag) (curr_func : std_string) :
  "("%char \notin curr_func -> " "%char \notin curr_func ->
  fits_size_t curr_func ->
  get_msg_prefix mag curr_func =
  Some (level_prefix mag ++ text "[" ++ curr_func ++ text "] ").
Proof.
move=> no_paren no_space fits.
by rewrite /get_msg_prefix cut_no_arguments // cut_no_scope.
Qed.

End Strings.

Section Messages.

Variables R StrFunc : Type.

Implicit Types (x : insertion R StrFunc) (xs : seq (insertion R StrFunc)).
Implicit Types (st : statics) (msg : Err_log).

Lemma insert_all_cons x xs msg st :
  insert_all (x :: xs) msg st = insert x msg st ++ insert_all xs msg st.
Proof. by []. Qed.

Lemma insert_all_passed xs msg st (to : stream) :
  (forall x, insert x msg st = [:: Write to x]) ->
  insert_all xs msg st = [seq Write to x | x <- xs].
Proof.
by move=> ins; elim: xs => [|x xs IH] //; rewrite insert_all_cons ins IH.
Qed.

Lemma insert_all_dropped xs msg st :
  (forall x, insert x msg st = [::]) -> insert_all xs msg st = [::].
Proof.
by move=> ins; elim: xs => [|x xs IH] //; rewrite insert_all_cons ins IH.
Qed.

(** X14. The level filters the insertions, not the prefix: a statement
    [Err_log(scope, mag) << x1 << ... << xn] writes its prefix to the main
    stream whatever the logging level, then the insertions when the
    magnitude is at least the level, and nothing more when it is below. *)
Theorem log_prefix_unfiltered (scope prefix : std_string) (mag : EMag)
    (xs : seq (insertion R StrFunc)) (out : stream) st :
  get_msg_prefix mag scope = Some prefix -> m_out_stream st = Some out ->
  log scope mag xs st =
  Some (Write_prefix R StrFunc out prefix ::
        if (EMag_value (m_mag st) <=? EMag_value mag)%Z
        then [seq Write out x | x <- xs] else [::]).
Proof.
move=> prefixE outE; rewrite /log /Err_log_new prefixE outE /=.
case: ifP => level.
  by rewrite (@insert_all_passed _ _ _ out) // => x; rewrite /insert /= level outE.
by rewrite insert_all_dropped // => x; rewrite /insert /= level.
Qed.

(** X15. A statement built with a file name reaches that file only, prefix
    and insertions, whatever the main stream is, even a null one. *)
Theorem log_file_only (scope prefix file : std_string) (mag : EMag)
    (xs : seq (insertion R StrFunc)) st :
  get_msg_prefix mag scope = Some prefix ->
  log_file scope mag file xs st =
  Some (Write_prefix R StrFunc (File_stream file) prefix ::
        if (EMag_value (m_mag st) <=? EMag_value mag)%Z
        then [seq Write (File_stream file) x | x <- xs] else [::]).
Proof.
move=> prefixE; rewrite /log_file /Err_log_new_file prefixE /=.
case: ifP => level.
  by rewrite (@insert_all_passed _ _ _ (File_stream file)) // => x;
     rewrite /insert /= level.
by rewrite insert_all_dropped // => x; rewrite /insert /= level.
Qed.

(** X16. Raising the logging level only cuts output: what a statement
    writes at a level is the beginning of what it writes at any lower
    level. *)
Theorem log_level_monotone (scope : std_string) (mag low high : EMag)
    (xs : seq (insertion R StrFunc)) st (written : seq (event R StrFunc)) :
  (EMag_value low <= EMag_value high)%Z ->
  log scope mag xs (Set_logging_level high st) = Some written ->
  exists more,
    log scope mag xs (Set_logging_level low st) = Some (written ++ more).
Proof.
move=> low_high; rewrite /log /Err_log_new /=.
case: (get_msg_prefix mag scope) => [prefix|] //.
case outE: (m_out_stream st) => [out|] // [<-].
have ins l : insert_all xs {| m_alt_stream := None; m_curr_mag := mag |}
               (Set_logging_level l st) =
             if (EMag_value l <=? EMag_value mag)%Z
             then [seq Write out x | x <- xs] else [::].
  case: ifP => level.
    by rewrite (@insert_all_passed _ _ _ out) // => x;
       rewrite /insert /= level outE.
  by rewrite insert_all_dropped // => x; rewrite /insert /= level.
rewrite !ins; case high_mag: (EMag_value high <=? EMag_value mag)%Z.
  have -> : (EMag_value low <=? EMag_value mag)%Z = true.
    by apply/Z.leb_le; move/Z.leb_le: high_mag; lia.
  by exists [::]; rewrite cats0.
by eexists.
Qed.

(** X17. A fatal message is written in full at every logging level. *)
Theorem log_Fatal_unfiltered (scope prefix : std_string)
    (xs : seq (insertion R StrFunc)) (out : stream) st :
  get_msg_prefix EMAG_Fatal scope = Some prefix -> m_out_stream st = Some out ->
  log scope EMAG_Fatal xs st =
  Some (Write_prefix R StrFunc out prefix :: [seq Write out x | x <- xs]).
Proof.
move=> prefixE outE; rewrite /log /Err_log_new prefixE outE /=.
by rewrite (@insert_all_passed _ _ _ out) // => x;
   rewrite /insert /= outE; case: (m_mag st).
Qed.

End Messages.

(** *** The theorems on the signature [void so::Foo::bar(int)] *)

Lemma get_msg_prefix_shape_example :
  fits_size_t (text "void so::Foo::bar(int)") /\
  exists func : std_string,
    get_msg_prefix EMAG_Info (text "void so::Foo::bar(int)") =
    Some (level_prefix EMAG_Info ++ text "[" ++ func ++ text "] ").
Proof.
have fits : fits_size_t (text "void so::Foo::bar(int)") by vm_compute.
split; first exact: fits.
have [pre [func [rest [_ prefixE _]]]] := get_msg_prefix_shape EMAG_Info fits.
by exists func.
Defined.

Lemma get_msg_prefix_signature_example :
  [/\ " "%char \notin text "so::Foo::bar", "("%char \notin text "int)",
      fits_size_t (text "void so::Foo::bar(int)")
    & get_msg_prefix EMAG_Info (text "void so::Foo::bar(int)") =
      Some (text "INFO--[so::Foo::bar] ")].
Proof.
have no_space : " "%char \notin text "so::Foo::bar" by vm_compute.
have no_paren : "("%char \notin text "int)" by vm_compute.
have fits : fits_size_t (text "void so::Foo::bar(int)") by vm_compute.
split; [exact: no_space | exact: no_paren | exact: fits |].
exact: (@get_msg_prefix_signature EMAG_Info (Some (text "void")) _ _
          no_space no_paren fits).
Defined.

Lemma get_msg_prefix_plain_example :
  [/\ "("%char \notin text "main", " "%char \notin text "main",
      fits_size_t (text "main")
    & get_msg_prefix EMAG_Fatal (text "main") = Some (text "FATAL--[main] ")].
Proof.
have no_paren : "("%char \notin text "main" by vm_compute.
have no_space : " "%char \notin text "main" by vm_compute.
have fits : fits_size_t (text "main") by vm_compute.
split; [exact: no_paren | exact: no_space | exact: fits |].
exact: (get_msg_prefix_plain EMAG_Fatal no_paren no_space fits).
Defined.

(** A debug message while the level is [EMAG_Warning]. *)
Lemma log_prefix_unfiltered_example :
  [/\ get_msg_prefix EMAG_Debug (text "main") = Some (text "DEBUG--[main] "),
      m_out_stream (Set_logging_level EMAG_Warning initial_statics) =
      Some Default_stream
    & log (text "main") EMAG_Debug [:: Object unit (text "x = 1")]
        (Set_logging_level EMAG_Warning initial_statics) =
      Some [:: Write_prefix std_string unit Default_stream
                 (text "DEBUG--[main] ")]].
Proof.
have prefixE :
  get_msg_prefix EMAG_Debug (text "main") = Some (text "DEBUG--[main] ").
  by vm_compute.
split; [exact: prefixE | by [] |].
exact: (log_prefix_unfiltered [:: Object unit (text "x = 1")]
          (st := Set_logging_level EMAG_Warning initial_statics) prefixE
          (erefl (Some Default_stream))).
Defined.

Lemma log_file_only_example :
  get_msg_prefix EMAG_Severe (text "main") = Some (text "SEVERE--[main] ") /\
  log_file (text "main") EMAG_Severe (text "err.log")
    [:: Object unit (text "x = 1")]
    {| m_mag := EMAG_Debug; m_out_stream := None |} =
  Some [:: Write_prefix std_string unit (File_stream (text "err.log"))
             (text "SEVERE--[main] ");
           Write (File_stream (text "err.log")) (Object unit (text "x = 1"))].
Proof.
have prefixE :
  get_msg_prefix EMAG_Severe (text "main") = Some (text "SEVERE--[main] ").
  by vm_compute.
split; first exact: prefixE.
exact: (log_file_only (text "err.log") [:: Object unit (text "x = 1")]
          {| m_mag := EMAG_Debug; m_out_stream := None |} prefixE).
Defined.

Lemma log_level_monotone_example :
  [/\ (EMag_value EMAG_Debug <= EMag_value EMAG_Fatal)%Z,
      log (text "main") EMAG_Info [:: Object unit (text "x = 1")]
        (Set_logging_level EMAG_Fatal initial_statics) =
      Some [:: Write_prefix std_string unit Default_stream
                 (text "INFO--[main] ")]
    & exists more,
      log (text "main") EMAG_Info [:: Object unit (text "x = 1")]
        (Set_logging_level EMAG_Debug initial_statics) =
      Some ([:: Write_prefix std_string unit Default_stream
                  (text "INFO--[main] ")] ++ more)].
Proof.
have low_high : (EMag_value EMAG_Debug <= EMag_value EMAG_Fatal)%Z by [].
have at_Fatal :
  log (text "main") EMAG_Info [:: Object unit (text "x = 1")]
    (Set_logging_level EMAG_Fatal initial_statics) =
  Some [:: Write_prefix std_string unit Default_stream (text "INFO--[main] ")].
  by vm_compute.
split; [exact: low_high | exact: at_Fatal |].
exact: (log_level_monotone low_high at_Fatal).
Defined.

Lemma log_Fatal_unfiltered_example :
  [/\ get_msg_prefix EMAG_Fatal (text "main") = Some (text "FATAL--[main] "),
      m_out_stream (Set_logging_level EMAG_Fatal initial_statics) =
      Some Default_stream
    & log (text "main") EMAG_Fatal [:: Object unit (text "x = 1")]
        (Set_logging_level EMAG_Fatal initial_statics) =
      Some [:: Write_prefix std_string unit Default_stream
                 (text "FATAL--[main] ");
               Write Default_stream (Object unit (text "x = 1"))]].
Proof.
have prefixE :
  get_msg_prefix EMAG_Fatal (text "main") = Some (text "FATAL--[main] ").
  by vm_compute.
split; [exact: prefixE | by [] |].
exact: (log_Fatal_unfiltered [:: Object unit (text "x = 1")]
          (st := Set_logging_level EMAG_Fatal initial_statics) prefixE
          (erefl (Some Default_stream))).
Defined.

End ErrlogTheory.

(** ** Properties of the clock *)

Module Time_utilsTheory.

Import Time_utils.
Import ZArith QArith.

Local Open Scope Z_scope.

(** X18. While the clock is at or after the epoch (and the microseconds
    fit 53 bits), [Unix_time] returns the clock itself: a whole number of
    seconds, with nothing after the decimal point. *)
Theorem Unix_time_whole_seconds (now : Z) :
  0 <= now < 9007199254 ->
  exists2 sec : Q, Unix_time now = Some sec & (sec == inject_Z now)%Q.
Proof.
move=> now_range; rewrite /Unix_time.
have -> : int64_range (now * 1000000) = true.
  by rewrite /int64_range; apply/andP; split; [apply/Z.leb_le|apply/Z.ltb_lt]; lia.
have -> : (now * 1000000) mod 2 ^ 64 = now * 1000000.
  by apply: Z.mod_small; lia.
exists (inject_Z (now * 1000000) / inject_Z 1000000)%Q => //.
by rewrite inject_Z_mult; field.
Qed.

(** X19. A clock before the epoch, and so the value [-1] by which
    [std::time] reports a failure, does not give a negative time: the
    microseconds wrap around in [size_t] and [Unix_time] returns the clock
    plus [2^64 / 10^6] seconds, more than [9 * 10^12]. *)
Theorem Unix_time_before_epoch (now : Z) :
  - 9223372036854 <= now < 0 ->
  exists2 sec : Q,
    Unix_time now = Some sec
    & (sec == inject_Z now + inject_Z (2 ^ 64) / inject_Z 1000000)%Q /\
      (inject_Z 9000000000000 <= sec)%Q.
Proof.
move=> now_range; rewrite /Unix_time.
have -> : int64_range (now * 1000000) = true.
  by rewrite /int64_range; apply/andP; split; [apply/Z.leb_le|apply/Z.ltb_lt]; lia.
have -> : (now * 1000000) mod 2 ^ 64 = now * 1000000 + 2 ^ 64.
  symmetry; apply: (Z.mod_unique _ _ (-1)); lia.
exists (inject_Z (now * 1000000 + 2 ^ 64) / inject_Z 1000000)%Q => //.
split; first by rewrite inject_Z_plus inject_Z_mult; field.
apply: Qle_shift_div_l => //.
rewrite -inject_Z_mult -Zle_Qle; lia.
Qed.

Lemma Unix_time_whole_seconds_example :
  0 <= 1793373373 < 9007199254 /\
  exists2 sec : Q,
    Unix_time 1793373373 = Some sec & (sec == inject_Z 1793373373)%Q.
Proof.
have now_range : 0 <= 1793373373 < 9007199254 by lia.
split; first exact: now_range.
exact: Unix_time_whole_seconds.
Defined.

Lemma Unix_time_failed_clock :
  - 9223372036854 <= -1 < 0 /\
  exists2 sec : Q,
    Unix_time (-1) = Some sec & (inject_Z 9000000000000 <= sec)%Q.
Proof.
have now_range : - 9223372036854 <= -1 < 0 by lia.
split; first exact: now_range.
have [sec secE [_ sec_large]] := Unix_time_before_epoch now_range.
by exists sec.
Defined.

End Time_utilsTheory.
